(** * bplus: an in-memory B+ tree over byte-slice keys and values

    A shallow embedding of the Go package [bplus] (file [bplus.go]) and the
    properties of its exported operations.

    Conventions of the embedding.
    - A Go slice is [slice A]: [None] is the nil slice, [Some l] a non-nil
      slice holding [l].  [Key] and [Value] are byte slices, so a nil key is
      [None], which is what the loops of [GetKeys] and [GetValues] test.
    - The slices stored in the fields of a node are only ranged over, never
      compared with nil, so a field is the list of its elements.
    - A value of the interface type [node] is either the nil interface
      ([None] in a [list (option node)]) or one of the two implementations,
      a pointer to a struct.  The structs form a finite tree: an interface
      that holds a nil pointer, and a node that is its own descendant, are
      not values of [node].
    - Go's [error] is [option string], [None] being the nil error.
    - A Go [int] is a [Z] in the range of 64 bits; the one sum the package
      computes ([order+1] in [newInternalNode]) wraps around.
    - A method with a pointer receiver returns, next to its Go results, the
      state of the receiver when the call returns.
    - A panic, of the package or of the Go runtime in [make], is the
      [Panics] outcome of a call.  Running out of memory is no panic: it is
      a fatal error that ends the process and that no Go code observes.  It
      is not an outcome here, so [Returns] says what a call returns when the
      runtime has the memory it asks for. *)

From Stdlib Require Import ZArith List String Bool Lia.
From Stdlib Require Import Strings.Byte.
Import ListNotations.
Open Scope Z_scope.

(** ** Go values *)

Section Slices.
Context {A : Type}.

Definition slice : Type := option (list A).

(** The elements of a slice; the nil slice has none. *)
Definition elems (s : slice) : list A :=
  match s with
  | None => []
  | Some l => l
  end.

Definition len (s : slice) : Z := Z.of_nat (List.length (elems s)).

(** [append(s, x)]: the result holds an element, so it is never nil. *)
Definition append (s : slice) (x : A) : slice := Some (elems s ++ [x]).

(** [append(s, t...)]: with nothing to add the slice [s] comes back as it
    is (nil stays nil). *)
Definition append_all (s t : slice) : slice :=
  match elems t with
  | [] => s
  | x :: l => Some (elems s ++ x :: l)
  end.
End Slices.

Arguments slice : clear implicits.

Definition Key : Type := slice byte.
Definition Value : Type := slice byte.

Definition error : Type := option string.

Inductive outcome (A : Type) : Type :=
| Returns (a : A)
| Panics (msg : string).

Arguments Returns {A} a.
Arguments Panics {A} msg.

(** Sequencing: a panic of the first call is the outcome of the whole. *)
Definition bind {A B : Type} (c : outcome A) (k : A -> outcome B)
  : outcome B :=
  match c with
  | Returns a => k a
  | Panics msg => Panics msg
  end.

Notation "x <- c ;; k" := (bind c (fun x => k))
  (at level 61, c at next level, right associativity).

(** ** Integers and the allocation of slices *)

Definition int_min : Z := - 2 ^ 63.
Definition int_max : Z := 2 ^ 63 - 1.

(** The value of an [int] expression whose mathematical value is [z]. *)
Definition int_wrap (z : Z) : Z := (z + 2 ^ 63) mod 2 ^ 64 - 2 ^ 63.

(** The most the runtime allocates at once on a 64-bit platform, in bytes,
    and the sizes of the elements the package makes slices of: a slice
    header (a [Key], a [Value]) and an interface value (a [node]). *)
Definition maxAlloc : Z := 2 ^ 48.
Definition slice_size : Z := 24.
Definition interface_size : Z := 16.

(** The check of the runtime's [makeslice] on a length [n] of elements of
    [size] bytes: the length is negative, or the size of the slice
    overflows or exceeds [maxAlloc] (the product below is the mathematical
    one, and [maxAlloc] is smaller than any product that overflows). *)
Definition makeslice_panics (size n : Z) : bool :=
  (n <? 0) || (maxAlloc <? size * n).

(** [make([]A, n)] for elements of [size] bytes whose zero value is
    [zero]: a panic when the check fails, [n] zero values otherwise. *)
Definition make {A : Type} (size : Z) (zero : A) (n : Z)
  : outcome (list A) :=
  if makeslice_panics size n
  then Panics "runtime error: makeslice: len out of range"
  else Returns (repeat zero (Z.to_nat n)).

(** ** The order on keys

    The package compares no two keys; the order in which a key sequence is
    non-decreasing is the lexicographic order on the bytes, the one Go's
    [bytes.Compare] computes (a nil and an empty key compare equal). *)

Fixpoint bytes_compare (a b : list byte) : comparison :=
  match a, b with
  | [], [] => Eq
  | [], _ :: _ => Lt
  | _ :: _, [] => Gt
  | x :: a', y :: b' =>
      match N.compare (Byte.to_N x) (Byte.to_N y) with
      | Eq => bytes_compare a' b'
      | c => c
      end
  end.

Definition Key_leb (k1 k2 : Key) : bool :=
  match bytes_compare (elems k1) (elems k2) with
  | Gt => false
  | _ => true
  end.

Fixpoint non_decreasing (ks : list Key) : bool :=
  match ks with
  | [] => true
  | k :: rest =>
      match rest with
      | [] => true
      | k' :: _ => Key_leb k k' && non_decreasing rest
      end
  end.

(** ** Nodes *)

Inductive fillState : Type :=
| nodeEmpty
| nodePartiallyFull
| nodeFull.

(** The two implementations of the interface [node].  [order], [keys] and
    [pointers] are the fields of the Go structs, [next] the sibling link of a
    leaf (the nil interface when [None]). *)
#[warnings="-register-all"]
Inductive node : Type :=
| internalNode (order : Z) (keys : list Key) (pointers : list (option node))
| leafNode (order : Z) (keys : list Key) (pointers : list Value)
           (next : option node).

Definition node_keys (n : node) : list Key :=
  match n with
  | internalNode _ keys _ => keys
  | leafNode _ keys _ _ => keys
  end.

Definition is_leaf (n : node) : bool :=
  match n with
  | internalNode _ _ _ => false
  | leafNode _ _ _ _ => true
  end.

(** The fields of a struct literal are evaluated in the order they are
    written: [keys] first, then [pointers]. *)
Definition newLeafNode (order : Z) : outcome node :=
  keys <- make slice_size (None : Key) order ;;
  pointers <- make slice_size (None : Value) order ;;
  Returns (leafNode order keys pointers None).

(** [getFillState], the same loop for both kinds of node: the first nil key
    decides. *)
Fixpoint getFillState_from (first : bool) (keys : list Key) : fillState :=
  match keys with
  | [] => nodeFull
  | Some _ :: rest => getFillState_from false rest
  | None :: _ => if first then nodeEmpty else nodePartiallyFull
  end.

Definition getFillState (n : node) : fillState :=
  getFillState_from true (node_keys n).

(** The loop of [leafNode.GetKeys] and [leafNode.GetValues]: collect the
    slots up to the first nil one.  [acc] is the local [keys] (or [vals]),
    declared nil. *)
Fixpoint collect_until_nil (slots : list (slice byte))
    (acc : slice (slice byte)) : slice (slice byte) :=
  match slots with
  | [] => acc
  | None :: _ => acc
  | Some b :: rest => collect_until_nil rest (append acc (Some b))
  end.

Definition leafNode_GetKeys (keys : list Key) : slice Key * error :=
  (collect_until_nil keys None, None).

Definition leafNode_GetValues (pointers : list Value) : slice Value * error :=
  (collect_until_nil pointers None, None).

(** [GetKeys] through the interface.  For an internal node the children are
    visited in order up to the first nil pointer; an error of a child is
    returned at once with a nil slice. *)
Fixpoint node_GetKeys (n : node) : slice Key * error :=
  match n with
  | leafNode _ keys _ _ => leafNode_GetKeys keys
  | internalNode _ _ pointers =>
      (fix children (ps : list (option node)) (keys : slice Key)
         : slice Key * error :=
         match ps with
         | [] => (keys, None)
         | None :: _ => (keys, None)
         | Some p :: rest =>
             match node_GetKeys p with
             | (_, Some err) => (None, Some err)
             | (k, None) => children rest (append_all keys k)
             end
         end) pointers None
  end.

Fixpoint node_GetValues (n : node) : slice Value * error :=
  match n with
  | leafNode _ _ pointers _ => leafNode_GetValues pointers
  | internalNode _ _ pointers =>
      (fix children (ps : list (option node)) (vals : slice Value)
         : slice Value * error :=
         match ps with
         | [] => (vals, None)
         | None :: _ => (vals, None)
         | Some p :: rest =>
             match node_GetValues p with
             | (_, Some err) => (None, Some err)
             | (v, None) => children rest (append_all vals v)
             end
         end) pointers None
  end.

(** The remaining methods have the same body in both implementations: they
    return nil results and assign to no field of the receiver. *)
Definition internalNode_Search (n : node) (k : Key) : Value * error :=
  (None, None).

Definition internalNode_SearchRange (n : node) (k1 k2 : Key)
  : slice Value * error := (None, None).

Definition internalNode_Insert (n : node) (k : Key) (v : Value)
  : node * error := (n, None).

Definition internalNode_Update (n : node) (k : Key) (v : Value)
  : node * error := (n, None).

Definition internalNode_Delete (n : node) (k : Key) : node * error :=
  (n, None).

Definition leafNode_Search (n : node) (k : Key) : Value * error :=
  (None, None).

Definition leafNode_SearchRange (n : node) (k1 k2 : Key)
  : slice Value * error := (None, None).

Definition leafNode_Insert (n : node) (k : Key) (v : Value)
  : node * error := (n, None).

Definition leafNode_Update (n : node) (k : Key) (v : Value)
  : node * error := (n, None).

Definition leafNode_Delete (n : node) (k : Key) : node * error :=
  (n, None).

(** Dynamic dispatch on the interface [node]. *)
Definition node_Search (n : node) (k : Key) : Value * error :=
  if is_leaf n then leafNode_Search n k else internalNode_Search n k.

Definition node_SearchRange (n : node) (k1 k2 : Key) : slice Value * error :=
  if is_leaf n then leafNode_SearchRange n k1 k2
  else internalNode_SearchRange n k1 k2.

Definition node_Insert (n : node) (k : Key) (v : Value) : node * error :=
  if is_leaf n then leafNode_Insert n k v else internalNode_Insert n k v.

Definition node_Update (n : node) (k : Key) (v : Value) : node * error :=
  if is_leaf n then leafNode_Update n k v else internalNode_Update n k v.

Definition node_Delete (n : node) (k : Key) : node * error :=
  if is_leaf n then leafNode_Delete n k else internalNode_Delete n k.

(** ** The tree *)

(** A [BPlusTree] is what [NewBPlusTree] hands out: its [root] holds one of
    the two node implementations. *)
Record BPlusTree : Type := mkBPlusTree {
  order : Z;
  root : node
}.

Definition NewBPlusTree (ord : Z) : outcome BPlusTree :=
  if ord <=? 0 then Panics "tree order must be >= 1"
  else r <- newLeafNode ord ;; Returns {| order := ord; root := r |}.

Definition Order (t : BPlusTree) : Z := order t.

Definition GetKeys (t : BPlusTree) : slice Key * error :=
  node_GetKeys (root t).

Definition GetValues (t : BPlusTree) : slice Value * error :=
  node_GetValues (root t).

Definition Search (t : BPlusTree) (k : Key) : Value * error :=
  node_Search (root t) k.

Definition SearchRange (t : BPlusTree) (k1 k2 : Key) : slice Value * error :=
  node_SearchRange (root t) k1 k2.

(** The receiver after a call on its root: the tree's own fields are not
    assigned by any method. *)
Definition with_root (t : BPlusTree) (r : node * error) : BPlusTree * error :=
  ({| order := order t; root := fst r |}, snd r).

Definition Insert (t : BPlusTree) (k : Key) (v : Value) : BPlusTree * error :=
  with_root t (node_Insert (root t) k v).

Definition Update (t : BPlusTree) (k : Key) (v : Value) : BPlusTree * error :=
  with_root t (node_Update (root t) k v).

Definition Delete (t : BPlusTree) (k : Key) : BPlusTree * error :=
  with_root t (node_Delete (root t) k).

(** ** Sequences of mutating calls *)

Inductive call : Type :=
| CallInsert (k : Key) (v : Value)
| CallUpdate (k : Key) (v : Value)
| CallDelete (k : Key).

Definition exec (t : BPlusTree) (c : call) : BPlusTree * error :=
  match c with
  | CallInsert k v => Insert t k v
  | CallUpdate k v => Update t k v
  | CallDelete k => Delete t k
  end.

(** The tree after a sequence of calls, first call first. *)
Definition run (t : BPlusTree) (cs : list call) : BPlusTree :=
  fold_left (fun t c => fst (exec t c)) cs t.

(** The trees a program can hold: built by [NewBPlusTree], then changed only
    by [Insert], [Update] and [Delete]. *)
Inductive reachable : BPlusTree -> Prop :=
| reach_new ord t : NewBPlusTree ord = Returns t -> reachable t
| reach_call t c : reachable t -> reachable (fst (exec t c)).

(** ** Sample data *)

Definition bytes (l : list byte) : slice byte := Some l.

Definition k1 : Key := bytes [x01].
Definition k2 : Key := bytes [x02].
Definition k3 : Key := bytes [x03].
Definition k5 : Key := bytes [x05].
Definition k7 : Key := bytes [x07].
Definition k9 : Key := bytes [x09].

Definition v1 : Value := bytes [x61].
Definition v2 : Value := bytes [x62].
Definition v3 : Value := bytes [x63].
Definition v5 : Value := bytes [x65].
Definition v7 : Value := bytes [x67].
Definition v9 : Value := bytes [x69].

(** A tree of order 5 whose root is a full leaf holding the keys 1, 3, 5, 7
    and 9. *)
Definition odd_leaf : node :=
  leafNode 5 [k1; k3; k5; k7; k9] [v1; v3; v5; v7; v9] None.

Definition odd_tree : BPlusTree := {| order := 5; root := odd_leaf |}.

(** The five insertions that are meant to build such a tree. *)
Definition odd_inserts : list call :=
  [CallInsert k1 v1; CallInsert k3 v3; CallInsert k5 v5; CallInsert k7 v7;
   CallInsert k9 v9].

(** The two insertions of one key, with two values. *)
Definition dup_inserts : list call := [CallInsert k3 v1; CallInsert k3 v2].

(** A leaf of order 4 holding the key 3 twice, as two insertions are meant
    to leave it. *)
Definition dup_tree : BPlusTree :=
  {| order := 4;
     root := leafNode 4 [k3; k3; None; None] [v1; v2; None; None] None |}.

(** A new tree of order 2 after an [Insert] and a [Delete]. *)
Definition tree_after_two_calls : BPlusTree :=
  fst (exec (fst (exec {| order := 2;
                           root := leafNode 2 [None; None] [None; None]
                                     None |}
                     (CallInsert k3 v3)))
            (CallDelete k1)).

(** The tree [NewBPlusTree] returns for the order 4. *)
Definition new_tree_4 : BPlusTree :=
  {| order := 4;
     root := leafNode 4 [None; None; None; None] [None; None; None; None]
               None |}.

(** ** What a range search is specified to return

    Written from the specification, to compare [SearchRange] with: the
    values of the entries whose key lies in the inclusive range, in the order
    of [GetKeys]. *)

Definition entries (t : BPlusTree) : list (Key * Value) :=
  combine (elems (fst (GetKeys t))) (elems (fst (GetValues t))).

Definition in_range (lo hi : Key) (e : Key * Value) : bool :=
  Key_leb lo (fst e) && Key_leb (fst e) hi.

Definition spec_SearchRange (t : BPlusTree) (lo hi : Key) : list Value :=
  map snd (filter (in_range lo hi) (entries t)).

(** ** The constructor of internal nodes

    [newInternalNode] makes a slice of [order] keys and a slice of
    [order+1] pointers; the sum is computed on [int]. *)

Definition newInternalNode (order : Z) : outcome node :=
  keys <- make slice_size (None : Key) order ;;
  pointers <- make interface_size (None : option node)
                (int_wrap (order + 1)) ;;
  Returns (internalNode order keys pointers).

(** ** Words for the statements about the traversals *)

Definition is_nil {A : Type} (s : option A) : bool :=
  match s with
  | None => true
  | Some _ => false
  end.

(** The slots of a slice that come before its first nil slot. *)
Fixpoint filled_prefix {A : Type} (slots : list (option A)) : list A :=
  match slots with
  | Some a :: rest => a :: filled_prefix rest
  | _ => []
  end.

(** The loop of [internalNode.GetKeys] (of [internalNode.GetValues]) on its
    own: the pointers still to visit and the local slice so far. *)
Fixpoint children_GetKeys (ps : list (option node)) (keys : slice Key)
  : slice Key * error :=
  match ps with
  | [] => (keys, None)
  | None :: _ => (keys, None)
  | Some p :: rest =>
      match node_GetKeys p with
      | (_, Some err) => (None, Some err)
      | (k, None) => children_GetKeys rest (append_all keys k)
      end
  end.

Fixpoint children_GetValues (ps : list (option node)) (vals : slice Value)
  : slice Value * error :=
  match ps with
  | [] => (vals, None)
  | None :: _ => (vals, None)
  | Some p :: rest =>
      match node_GetValues p with
      | (_, Some err) => (None, Some err)
      | (v, None) => children_GetValues rest (append_all vals v)
      end
  end.

(** The keys (the values) of a node, as [GetKeys] ([GetValues]) returns
    them. *)
Definition keys_of (n : node) : list Key := elems (fst (node_GetKeys n)).
Definition values_of (n : node) : list Value := elems (fst (node_GetValues n)).

(** A value slot of a leaf is nil exactly where its key slot is, in every
    leaf below the node. *)
Fixpoint same_nil (keys : list Key) (pointers : list Value) : bool :=
  match keys, pointers with
  | [], [] => true
  | k :: keys', v :: pointers' =>
      Bool.eqb (is_nil k) (is_nil v) && same_nil keys' pointers'
  | _, _ => false
  end.

Fixpoint paired (n : node) : bool :=
  match n with
  | leafNode _ keys pointers _ => same_nil keys pointers
  | internalNode _ _ pointers =>
      (fix all (ps : list (option node)) : bool :=
         match ps with
         | [] => true
         | None :: rest => all rest
         | Some p :: rest => paired p && all rest
         end) pointers
  end.

(** A tree of two levels: a root with one separator key and two leaves,
    the second of which has a free slot; the third pointer is nil. *)
Definition right_leaf : node := leafNode 2 [k5; None] [v5; None] None.
Definition left_leaf : node := leafNode 2 [k1; k3] [v1; v3] (Some right_leaf).

Definition two_level_root : node :=
  internalNode 2 [k5; None] [Some left_leaf; Some right_leaf; None].

(** * Properties *)

(** ** The stubbed methods *)

Lemma node_Search_nil (n : node) (k : Key) : node_Search n k = (None, None).
Proof. unfold node_Search. now destruct (is_leaf n). Qed.

Lemma node_SearchRange_nil (n : node) (lo hi : Key) :
  node_SearchRange n lo hi = (None, None).
Proof. unfold node_SearchRange. now destruct (is_leaf n). Qed.

Lemma node_Insert_same (n : node) (k : Key) (v : Value) :
  node_Insert n k v = (n, None).
Proof. unfold node_Insert. now destruct (is_leaf n). Qed.

Lemma node_Update_same (n : node) (k : Key) (v : Value) :
  node_Update n k v = (n, None).
Proof. unfold node_Update. now destruct (is_leaf n). Qed.

Lemma node_Delete_same (n : node) (k : Key) : node_Delete n k = (n, None).
Proof. unfold node_Delete. now destruct (is_leaf n). Qed.

Lemma with_root_same (t : BPlusTree) (e : error) :
  with_root t (root t, e) = (t, e).
Proof. now destruct t. Qed.

Lemma Insert_same (t : BPlusTree) (k : Key) (v : Value) :
  Insert t k v = (t, None).
Proof. unfold Insert. rewrite node_Insert_same. apply with_root_same. Qed.

Lemma Update_same (t : BPlusTree) (k : Key) (v : Value) :
  Update t k v = (t, None).
Proof. unfold Update. rewrite node_Update_same. apply with_root_same. Qed.

Lemma Delete_same (t : BPlusTree) (k : Key) : Delete t k = (t, None).
Proof. unfold Delete. rewrite node_Delete_same. apply with_root_same. Qed.

Lemma exec_same (t : BPlusTree) (c : call) : exec t c = (t, None).
Proof.
  destruct c; simpl;
    [apply Insert_same | apply Update_same | apply Delete_same].
Qed.

Lemma run_same (cs : list call) (t : BPlusTree) : run t cs = t.
Proof.
  unfold run. induction cs as [|c cs IH]; simpl; [reflexivity|].
  now rewrite exec_same.
Qed.

Create Rewrite HintDb stub.

#[local] Hint Rewrite node_Search_nil node_SearchRange_nil Insert_same
  Update_same Delete_same exec_same run_same : stub.

(** ** Allocation *)

Lemma make_returns {A : Type} (size : Z) (zero : A) (n : Z) :
  0 <= n -> size * n <= maxAlloc ->
  make size zero n = Returns (repeat zero (Z.to_nat n)).
Proof.
  intros H0 H1. unfold make, makeslice_panics.
  destruct (Z.ltb_spec n 0); [lia|].
  destruct (Z.ltb_spec maxAlloc (size * n)); [lia | reflexivity].
Qed.

Lemma make_panics {A : Type} (size : Z) (zero : A) (n : Z) :
  n < 0 \/ maxAlloc < size * n ->
  make size zero n = Panics "runtime error: makeslice: len out of range".
Proof.
  intros H. unfold make, makeslice_panics.
  destruct (Z.ltb_spec n 0); [reflexivity|].
  destruct (Z.ltb_spec maxAlloc (size * n)); [reflexivity | lia].
Qed.

Lemma make_inv {A : Type} (size : Z) (zero : A) (n : Z) (l : list A) :
  make size zero n = Returns l ->
  0 <= n /\ size * n <= maxAlloc /\ l = repeat zero (Z.to_nat n).
Proof.
  unfold make, makeslice_panics.
  destruct (Z.ltb_spec n 0); [discriminate|].
  destruct (Z.ltb_spec maxAlloc (size * n)); [discriminate|].
  intros [= <-]. auto.
Qed.

(** A leaf of [n] key slots and [n] value slots, all nil: what
    [newLeafNode] returns when it returns. *)
Lemma newLeafNode_inv (ord : Z) (n : node) :
  newLeafNode ord = Returns n ->
  0 <= ord /\ slice_size * ord <= maxAlloc /\
  n = leafNode ord (repeat None (Z.to_nat ord)) (repeat None (Z.to_nat ord))
        None.
Proof.
  unfold newLeafNode, bind.
  destruct (make slice_size (None : Key) ord) as [ks|] eqn:Ek;
    [|discriminate].
  destruct (make slice_size (None : Value) ord) as [vs|] eqn:Ev;
    [|discriminate].
  apply make_inv in Ek as (H0 & H1 & ->). apply make_inv in Ev as (_ & _ & ->).
  intros [= <-]. auto.
Qed.

Lemma newLeafNode_panics (ord : Z) :
  ord < 0 \/ maxAlloc < slice_size * ord ->
  newLeafNode ord = Panics "runtime error: makeslice: len out of range".
Proof.
  intros H. unfold newLeafNode. now rewrite make_panics.
Qed.

(** ** A new tree *)

Lemma NewBPlusTree_returns (ord : Z) (n : node) :
  1 <= ord -> newLeafNode ord = Returns n ->
  NewBPlusTree ord = Returns {| order := ord; root := n |}.
Proof.
  intros H E. unfold NewBPlusTree. rewrite E.
  destruct (Z.leb_spec ord 0); [lia | reflexivity].
Qed.

Lemma NewBPlusTree_panics (ord : Z) :
  ord < 1 -> NewBPlusTree ord = Panics "tree order must be >= 1".
Proof.
  intros H. unfold NewBPlusTree.
  destruct (Z.leb_spec ord 0); [reflexivity | lia].
Qed.

Lemma NewBPlusTree_inv (ord : Z) (t : BPlusTree) :
  NewBPlusTree ord = Returns t ->
  1 <= ord /\ exists n, newLeafNode ord = Returns n /\
                        t = {| order := ord; root := n |}.
Proof.
  unfold NewBPlusTree. destruct (Z.leb_spec ord 0); [discriminate|].
  destruct (newLeafNode ord) as [n|] eqn:E; [|discriminate].
  intros [= <-]. split; [lia | eauto].
Qed.

(** Every slot of a made slice is nil, so the collecting loop stops at once
    (or has nothing to range over). *)
Lemma collect_until_nil_repeat (n : nat) (acc : slice (slice byte)) :
  collect_until_nil (repeat None n) acc = acc.
Proof. now destruct n. Qed.

Lemma newLeafNode_GetKeys (ord : Z) (n : node) :
  newLeafNode ord = Returns n -> node_GetKeys n = (None, None).
Proof.
  intros E. apply newLeafNode_inv in E as (_ & _ & ->).
  simpl. unfold leafNode_GetKeys. now rewrite collect_until_nil_repeat.
Qed.

Lemma newLeafNode_GetValues (ord : Z) (n : node) :
  newLeafNode ord = Returns n -> node_GetValues n = (None, None).
Proof.
  intros E. apply newLeafNode_inv in E as (_ & _ & ->).
  simpl. unfold leafNode_GetValues. now rewrite collect_until_nil_repeat.
Qed.

(** The only reachable trees are the new ones: no call changes the tree it
    is made on. *)
Lemma reachable_new (t : BPlusTree) :
  reachable t ->
  exists ord n, 1 <= ord /\ newLeafNode ord = Returns n /\
                t = {| order := ord; root := n |}.
Proof.
  induction 1 as [ord t Hnew | t c _ IH].
  - apply NewBPlusTree_inv in Hnew as (H & n & E & ->). eauto.
  - now rewrite exec_same.
Qed.

(** The first key slot of a new leaf is nil whenever there is a slot at all:
    the node reports itself empty. *)
Lemma newLeafNode_empty (ord : Z) (n : node) :
  1 <= ord -> newLeafNode ord = Returns n -> getFillState n = nodeEmpty.
Proof.
  intros H E. apply newLeafNode_inv in E as (_ & _ & ->).
  unfold getFillState, node_keys.
  destruct (Z.to_nat ord) eqn:E; [lia | reflexivity].
Qed.

(** ** Construction and order *)

(** C7, as the claim has it, fails: an order of at least 1 for which
    construction panics (in [make], the key slice of the root being larger
    than the runtime allocates) and returns no tree. *)
Lemma NewBPlusTree_MaxInt_panics :
  1 <= int_max /\
  NewBPlusTree int_max =
  Panics "runtime error: makeslice: len out of range" /\
  ~ (exists t, NewBPlusTree int_max = Returns t).
Proof.
  split; [unfold int_max; lia|].
  assert (E : NewBPlusTree int_max =
              Panics "runtime error: makeslice: len out of range")
    by reflexivity.
  split; [exact E|]. intros (t & H). rewrite E in H. discriminate H.
Qed.

(** C7, amended: [NewBPlusTree] panics with its own message when the order
    is below 1, and in [make] when the order is at least 1 and the key slice
    of the root would exceed what the runtime allocates; for an order of at
    least 1 for which [newLeafNode] returns the root, it returns a tree
    whose [Order] is that order, and stays that order after any sequence of
    [Insert], [Update] and [Delete] calls. *)
Theorem NewBPlusTree_Order (ord : Z) :
  (ord < 1 -> NewBPlusTree ord = Panics "tree order must be >= 1") /\
  (1 <= ord -> maxAlloc < slice_size * ord ->
   NewBPlusTree ord = Panics "runtime error: makeslice: len out of range") /\
  (1 <= ord ->
   forall n, newLeafNode ord = Returns n ->
   exists t, NewBPlusTree ord = Returns t /\ Order t = ord /\
             forall cs, Order (run t cs) = ord).
Proof.
  split; [apply NewBPlusTree_panics|]. split.
  - intros H1 H2. unfold NewBPlusTree.
    rewrite newLeafNode_panics by now right.
    destruct (Z.leb_spec ord 0); [lia | reflexivity].
  - intros H n E. eexists. split; [apply NewBPlusTree_returns; eassumption|].
    split; [reflexivity|]. intros cs. now rewrite run_same.
Qed.

Lemma NewBPlusTree_Order_witness :
  NewBPlusTree 0 = Panics "tree order must be >= 1" /\
  NewBPlusTree (2 ^ 60) =
  Panics "runtime error: makeslice: len out of range" /\
  exists t, NewBPlusTree 4 = Returns t /\ Order t = 4 /\
            forall cs, Order (run t cs) = 4.
Proof.
  split; [|split].
  - apply (proj1 (NewBPlusTree_Order 0)). lia.
  - apply (proj1 (proj2 (NewBPlusTree_Order (2 ^ 60)))).
    + lia.
    + unfold maxAlloc, slice_size. lia.
  - assert (R : 1 <= 4) by lia.
    assert (E : newLeafNode 4 =
                Returns (leafNode 4 [None; None; None; None]
                           [None; None; None; None] None))
      by reflexivity.
    exact (proj2 (proj2 (NewBPlusTree_Order 4)) R _ E).
Defined.

(** C8, as the claim has it, fails: an order of at least 1 for which
    [NewBPlusTree] yields no tree at all. *)
Lemma NewBPlusTree_huge_order_no_tree :
  1 <= 2 ^ 62 /\
  NewBPlusTree (2 ^ 62) =
  Panics "runtime error: makeslice: len out of range" /\
  ~ (exists t, NewBPlusTree (2 ^ 62) = Returns t).
Proof.
  split; [lia|].
  assert (E : NewBPlusTree (2 ^ 62) =
              Panics "runtime error: makeslice: len out of range")
    by reflexivity.
  split; [exact E|]. intros (t & H). rewrite E in H. discriminate H.
Qed.

(** C8, amended: for an order of at least 1 for which [newLeafNode] returns
    the root, the tree [NewBPlusTree] returns has a leaf as its root, an
    empty one, and both [GetKeys] and [GetValues] return the nil slice (no
    element) with a nil error. *)
Theorem NewBPlusTree_empty_leaf (ord : Z) (n : node) :
  1 <= ord ->
  newLeafNode ord = Returns n ->
  exists t, NewBPlusTree ord = Returns t /\
            is_leaf (root t) = true /\
            getFillState (root t) = nodeEmpty /\
            GetKeys t = (None, None) /\
            GetValues t = (None, None).
Proof.
  intros H E. eexists. split; [apply NewBPlusTree_returns; eassumption|].
  split; [|split; [|split]]; simpl.
  - now apply newLeafNode_inv in E as (_ & _ & ->).
  - now apply (newLeafNode_empty ord).
  - now apply (newLeafNode_GetKeys ord).
  - now apply (newLeafNode_GetValues ord).
Qed.

Lemma NewBPlusTree_empty_leaf_witness :
  1 <= 3 /\
  newLeafNode 3 =
  Returns (leafNode 3 [None; None; None] [None; None; None] None) /\
  exists t, NewBPlusTree 3 = Returns t /\
            is_leaf (root t) = true /\
            getFillState (root t) = nodeEmpty /\
            GetKeys t = (None, None) /\
            GetValues t = (None, None).
Proof.
  assert (R : 1 <= 3) by lia.
  assert (E : newLeafNode 3 =
              Returns (leafNode 3 [None; None; None] [None; None; None] None))
    by reflexivity.
  split; [exact R|].
  split; [exact E | exact (NewBPlusTree_empty_leaf 3 _ R E)].
Defined.

(** ** Sortedness of the keys of a reachable tree *)

(** C6: on every tree reached from a new one by [Insert], [Update] and
    [Delete] calls, [GetKeys] returns, with a nil error, a sequence of keys
    that is non-decreasing. *)
Theorem reachable_GetKeys_non_decreasing (t : BPlusTree) :
  reachable t ->
  exists ks, GetKeys t = (ks, None) /\ non_decreasing (elems ks) = true.
Proof.
  intros H. destruct (reachable_new t H) as (ord & n & _ & E & ->).
  exists None. split; [apply (newLeafNode_GetKeys ord n E) | reflexivity].
Qed.

Lemma reachable_GetKeys_non_decreasing_witness :
  reachable tree_after_two_calls /\
  exists ks, GetKeys tree_after_two_calls = (ks, None) /\
             non_decreasing (elems ks) = true.
Proof.
  assert (R : reachable tree_after_two_calls).
  { unfold tree_after_two_calls. do 2 apply reach_call.
    apply (reach_new 2). reflexivity. }
  split; [exact R | exact (reachable_GetKeys_non_decreasing _ R)].
Defined.

(** ** The mutating calls change nothing *)

(** C9: each of [Insert], [Update] and [Delete], on any tree and with any
    arguments, returns a nil error and leaves [GetKeys], [GetValues],
    [Search], [SearchRange], [Order] and the root as they were. *)
Theorem mutation_is_a_no_op (t : BPlusTree) (c : call) :
  snd (exec t c) = None /\
  GetKeys (fst (exec t c)) = GetKeys t /\
  GetValues (fst (exec t c)) = GetValues t /\
  (forall k, Search (fst (exec t c)) k = Search t k) /\
  (forall lo hi, SearchRange (fst (exec t c)) lo hi = SearchRange t lo hi) /\
  Order (fst (exec t c)) = Order t /\
  root (fst (exec t c)) = root t.
Proof. rewrite exec_same. simpl. repeat split. Qed.

(** ** Search *)

(** C10: on any tree and for any key [Search] returns the nil value and the
    nil error, so any two lookups have the same result. *)
Theorem Search_always_nil (t : BPlusTree) (k : Key) :
  Search t k = (None, None) /\
  forall t' k', Search t' k' = Search t k.
Proof.
  unfold Search. split; [|intros t' k']; now autorewrite with stub.
Qed.

(** ** Where the stubs fall short of their documentation

    The comments of the package say that [Insert] adds a value at its key,
    that [Search] returns the first value with the matching key, that
    [SearchRange] returns all the values of a key range, that [Update] sets
    the value of all matching keys and that [Delete] removes all pairs with a
    matching key.  The statements below evaluate the code where it does not
    do so. *)

(** C1: after the keys 1, 3, 5, 7 and 9 are inserted with their values into
    a new tree of order 5, [Search] for the key 3 returns the nil value, not
    the value inserted with it; the tree holds no key at all. *)
Theorem Search_after_Insert_is_nil :
  exists t, NewBPlusTree 5 = Returns t /\
            Search (run t odd_inserts) k3 = (None, None) /\
            Search (run t odd_inserts) k3 <> (v3, None) /\
            GetKeys (run t odd_inserts) = (None, None).
Proof.
  eexists. split; [reflexivity|]. rewrite run_same. unfold Search.
  rewrite node_Search_nil. repeat split. discriminate.
Qed.

(** C2: on the tree holding the keys 1, 3, 5, 7 and 9, the values of the
    keys between 2 and 7 are those of 3, 5 and 7, and [SearchRange] from 2 to
    7 returns the nil slice; so it does on the tree the five insertions
    leave. *)
Theorem SearchRange_of_odd_tree_is_nil :
  Key_leb k2 k7 = true /\
  GetKeys odd_tree = (Some [k1; k3; k5; k7; k9], None) /\
  spec_SearchRange odd_tree k2 k7 = [v3; v5; v7] /\
  SearchRange odd_tree k2 k7 = (None, None) /\
  elems (fst (SearchRange odd_tree k2 k7)) <> spec_SearchRange odd_tree k2 k7 /\
  exists t, NewBPlusTree 5 = Returns t /\
            SearchRange (run t odd_inserts) k2 k7 = (None, None).
Proof.
  repeat split; try reflexivity.
  - discriminate.
  - eexists. split; reflexivity.
Qed.

(** C3: after the key 3 is inserted twice into a new tree, with two values,
    [SearchRange] from 3 to 3 and [Search] for 3 return nil and the tree
    holds no value; and on a leaf that holds the key twice, [Update] leaves
    both values and [Delete] leaves both keys. *)
Theorem duplicate_key_calls_do_nothing :
  (exists t, NewBPlusTree 4 = Returns t /\
             SearchRange (run t dup_inserts) k3 k3 = (None, None) /\
             Search (run t dup_inserts) k3 = (None, None) /\
             Search (run t dup_inserts) k3 <> (v1, None) /\
             GetValues (run t dup_inserts) = (None, None)) /\
  GetValues (fst (Update dup_tree k3 v9)) = (Some [v1; v2], None) /\
  GetKeys (fst (Delete dup_tree k3)) = (Some [k3; k3], None).
Proof.
  split; [|split; reflexivity].
  eexists. split; [reflexivity|]. rewrite run_same.
  unfold SearchRange, Search. autorewrite with stub.
  repeat split. discriminate.
Qed.

(** C4: [Delete] of the key 3 on the tree holding the keys 1, 3, 5, 7 and 9
    returns a nil error and leaves the key 3 among the keys [GetKeys]
    returns. *)
Theorem Delete_keeps_the_key :
  snd (Delete odd_tree k3) = None /\
  GetKeys (fst (Delete odd_tree k3)) = (Some [k1; k3; k5; k7; k9], None) /\
  In k3 (elems (fst (GetKeys (fst (Delete odd_tree k3))))).
Proof.
  repeat split. simpl. tauto.
Qed.

(** C5: [Update] of the key 3 to a new value on the tree holding the keys 1,
    3, 5, 7 and 9 returns a nil error and leaves the entry of the key 3 with
    its old value. *)
Theorem Update_keeps_the_value :
  snd (Update odd_tree k3 v2) = None /\
  GetValues (fst (Update odd_tree k3 v2)) = (Some [v1; v3; v5; v7; v9], None) /\
  In (k3, v3) (entries (fst (Update odd_tree k3 v2))) /\
  ~ In (k3, v2) (entries (fst (Update odd_tree k3 v2))).
Proof.
  repeat split.
  - simpl. tauto.
  - simpl. intros H. repeat (destruct H as [H|H]; [discriminate H|]).
    exact H.
Qed.

(** * The traversals and the fill state *)

(** ** Induction on nodes, with the children of an internal node *)

Section NodeInduction.
Variable P : node -> Prop.
Hypothesis P_leaf : forall o ks vs nx, P (leafNode o ks vs nx).
Hypothesis P_internal :
  forall o ks ps,
    Forall (fun p => forall n, p = Some n -> P n) ps ->
    P (internalNode o ks ps).

Lemma node_children_ind : forall n, P n.
Proof.
  fix IHn 1. intros [o ks ps | o ks vs nx]; [|apply P_leaf].
  apply P_internal. revert ps. fix IHps 1.
  intros [|p ps]; constructor; [|apply IHps].
  intros n Hp. destruct p as [m|]; [|discriminate Hp].
  injection Hp as <-. apply IHn.
Qed.
End NodeInduction.

(** ** Slices *)

Lemma append_all_elems {A : Type} (s t : slice A) :
  elems (append_all s t) = elems s ++ elems t.
Proof.
  unfold append_all. destruct (elems t); [now rewrite app_nil_r | reflexivity].
Qed.

Lemma append_all_not_empty {A : Type} (s t : slice A) :
  s <> Some [] -> append_all s t <> Some [].
Proof.
  unfold append_all. destruct (elems t); [easy|].
  intros _ [= H]. now destruct (elems s).
Qed.

Lemma slice_nil_iff {A : Type} (s : slice A) :
  s <> Some [] -> (s = None <-> elems s = []).
Proof.
  destruct s as [l|]; simpl; [|easy].
  intros H. split; [discriminate | intros ->; contradiction].
Qed.

(** ** The leaf loop *)

Lemma filled_prefix_split {A : Type} (slots : list (option A)) :
  exists rest,
    slots = map Some (filled_prefix slots) ++ rest /\
    (rest = [] \/ exists r, rest = None :: r).
Proof.
  induction slots as [|[a|] slots (rest & E & H)]; simpl.
  - exists []. auto.
  - exists rest. split; [now rewrite <- E | exact H].
  - exists (None :: slots). eauto.
Qed.

Lemma filled_prefix_length {A : Type} (slots : list (option A)) :
  (List.length (filled_prefix slots) <= List.length slots)%nat.
Proof.
  induction slots as [|[a|] slots IH]; simpl; lia.
Qed.

Lemma filled_prefix_short {A : Type} (slots : list (option A)) :
  In None slots ->
  (List.length (filled_prefix slots) < List.length slots)%nat.
Proof.
  induction slots as [|[a|] slots IH]; simpl; intros H.
  - contradiction.
  - destruct H as [H|H]; [discriminate H|]. apply IH in H. lia.
  - lia.
Qed.

Lemma filled_prefix_all {A : Type} (slots : list (option A)) :
  Forall (fun s => s <> None) slots <-> map Some (filled_prefix slots) = slots.
Proof.
  induction slots as [|[a|] slots IH]; simpl.
  - split; [reflexivity | constructor].
  - split; intros H.
    + f_equal. apply IH. now inversion H.
    + constructor; [discriminate|]. apply IH. now injection H.
  - split; intros H; [|discriminate H].
    inversion H; contradiction.
Qed.

Lemma collect_until_nil_elems (slots : list (slice byte))
    (acc : slice (slice byte)) :
  elems (collect_until_nil slots acc) =
  elems acc ++ map Some (filled_prefix slots).
Proof.
  revert acc. induction slots as [|[b|] slots IH]; intros acc; simpl.
  - now rewrite app_nil_r.
  - rewrite IH. simpl. now rewrite <- app_assoc.
  - now rewrite app_nil_r.
Qed.

Lemma collect_until_nil_not_empty (slots : list (slice byte))
    (acc : slice (slice byte)) :
  acc <> Some [] -> collect_until_nil slots acc <> Some [].
Proof.
  revert acc. induction slots as [|[b|] slots IH]; intros acc H; simpl; auto.
  apply IH. unfold append. intros [= E]. now destruct (elems acc).
Qed.

Lemma keys_of_leaf o ks vs nx :
  keys_of (leafNode o ks vs nx) = map Some (filled_prefix ks).
Proof. unfold keys_of. simpl. apply collect_until_nil_elems. Qed.

Lemma values_of_leaf o ks vs nx :
  values_of (leafNode o ks vs nx) = map Some (filled_prefix vs).
Proof. unfold values_of. simpl. apply collect_until_nil_elems. Qed.

(** ** The loop over the children *)

Lemma node_GetKeys_internal o ks ps :
  node_GetKeys (internalNode o ks ps) = children_GetKeys ps None.
Proof. reflexivity. Qed.

Lemma node_GetValues_internal o ks ps :
  node_GetValues (internalNode o ks ps) = children_GetValues ps None.
Proof. reflexivity. Qed.

(** When no child fails the loop does not fail, and it has appended the
    keys of the children before the first nil pointer, in order. *)
Lemma children_GetKeys_spec (ps : list (option node)) :
  Forall (fun p => forall n, p = Some n -> snd (node_GetKeys n) = None) ps ->
  forall acc,
    snd (children_GetKeys ps acc) = None /\
    elems (fst (children_GetKeys ps acc)) =
    elems acc ++ flat_map keys_of (filled_prefix ps).
Proof.
  induction 1 as [|[p|] ps Hp _ IH]; intros acc; simpl.
  - now rewrite app_nil_r.
  - specialize (Hp p eq_refl). unfold keys_of at 1.
    destruct (node_GetKeys p) as [k [err|]]; [discriminate Hp|].
    destruct (IH (append_all acc k)) as [E1 E2]. split; [exact E1|].
    rewrite E2, append_all_elems. simpl. now rewrite app_assoc.
  - now rewrite app_nil_r.
Qed.

Lemma children_GetValues_spec (ps : list (option node)) :
  Forall (fun p => forall n, p = Some n -> snd (node_GetValues n) = None) ps ->
  forall acc,
    snd (children_GetValues ps acc) = None /\
    elems (fst (children_GetValues ps acc)) =
    elems acc ++ flat_map values_of (filled_prefix ps).
Proof.
  induction 1 as [|[p|] ps Hp _ IH]; intros acc; simpl.
  - now rewrite app_nil_r.
  - specialize (Hp p eq_refl). unfold values_of at 1.
    destruct (node_GetValues p) as [v [err|]]; [discriminate Hp|].
    destruct (IH (append_all acc v)) as [E1 E2]. split; [exact E1|].
    rewrite E2, append_all_elems. simpl. now rewrite app_assoc.
  - now rewrite app_nil_r.
Qed.

Lemma node_GetKeys_no_error (n : node) : snd (node_GetKeys n) = None.
Proof.
  induction n as [o ks vs nx | o ks ps IH] using node_children_ind.
  - reflexivity.
  - rewrite node_GetKeys_internal. now apply children_GetKeys_spec.
Qed.

Lemma node_GetValues_no_error (n : node) : snd (node_GetValues n) = None.
Proof.
  induction n as [o ks vs nx | o ks ps IH] using node_children_ind.
  - reflexivity.
  - rewrite node_GetValues_internal. now apply children_GetValues_spec.
Qed.

Lemma children_no_error (f : node -> Prop) (ps : list (option node)) :
  (forall n, f n) -> Forall (fun p => forall n, p = Some n -> f n) ps.
Proof. intros H. apply Forall_forall. intros p _ n _. apply H. Qed.

Lemma keys_of_internal o ks ps :
  keys_of (internalNode o ks ps) = flat_map keys_of (filled_prefix ps).
Proof.
  unfold keys_of at 1. rewrite node_GetKeys_internal.
  apply (children_GetKeys_spec ps).
  apply (children_no_error (fun n => snd (node_GetKeys n) = None)).
  exact node_GetKeys_no_error.
Qed.

Lemma values_of_internal o ks ps :
  values_of (internalNode o ks ps) = flat_map values_of (filled_prefix ps).
Proof.
  unfold values_of at 1. rewrite node_GetValues_internal.
  apply (children_GetValues_spec ps).
  apply (children_no_error (fun n => snd (node_GetValues n) = None)).
  exact node_GetValues_no_error.
Qed.

Lemma children_GetKeys_not_empty (ps : list (option node)) (acc : slice Key) :
  acc <> Some [] -> fst (children_GetKeys ps acc) <> Some [].
Proof.
  revert acc. induction ps as [|[p|] ps IH]; intros acc H; simpl; auto.
  destruct (node_GetKeys p) as [k [err|]]; [discriminate|].
  apply IH. now apply append_all_not_empty.
Qed.

Lemma children_GetValues_not_empty (ps : list (option node))
    (acc : slice Value) :
  acc <> Some [] -> fst (children_GetValues ps acc) <> Some [].
Proof.
  revert acc. induction ps as [|[p|] ps IH]; intros acc H; simpl; auto.
  destruct (node_GetValues p) as [v [err|]]; [discriminate|].
  apply IH. now apply append_all_not_empty.
Qed.

Lemma node_GetKeys_not_empty (n : node) : fst (node_GetKeys n) <> Some [].
Proof.
  destruct n as [o ks ps | o ks vs nx].
  - rewrite node_GetKeys_internal. now apply children_GetKeys_not_empty.
  - simpl. now apply collect_until_nil_not_empty.
Qed.

Lemma node_GetValues_not_empty (n : node) : fst (node_GetValues n) <> Some [].
Proof.
  destruct n as [o ks ps | o ks vs nx].
  - rewrite node_GetValues_internal. now apply children_GetValues_not_empty.
  - simpl. now apply collect_until_nil_not_empty.
Qed.

(** ** What [GetKeys] and [GetValues] return *)

(** X1: on a tree whose nodes are leaf and internal node structs, nested to
    any finite depth, the children of an internal node being nil interfaces
    or such nodes, the error [GetKeys] and [GetValues] return is nil: no
    leaf returns an error, so the error branch of the loop over the children
    is never taken. *)
Theorem GetKeys_GetValues_never_fail (t : BPlusTree) :
  snd (GetKeys t) = None /\ snd (GetValues t) = None.
Proof.
  split; [apply node_GetKeys_no_error | apply node_GetValues_no_error].
Qed.

(** X2: the keys [GetKeys] returns for a leaf are its key slots up to the
    first nil slot (or all of them when none is nil): the slots are the
    returned keys followed by nothing or by a nil slot and the rest, and no
    returned key is nil.  The same holds of [GetValues] and the value
    slots. *)
Theorem leaf_GetKeys_GetValues_stop_at_nil o ks vs nx :
  (exists rest, ks = keys_of (leafNode o ks vs nx) ++ rest /\
                (rest = [] \/ exists r, rest = None :: r)) /\
  Forall (fun k => k <> None) (keys_of (leafNode o ks vs nx)) /\
  (exists rest, vs = values_of (leafNode o ks vs nx) ++ rest /\
                (rest = [] \/ exists r, rest = None :: r)) /\
  Forall (fun v => v <> None) (values_of (leafNode o ks vs nx)).
Proof.
  rewrite keys_of_leaf, values_of_leaf.
  repeat split; try apply filled_prefix_split;
    apply Forall_forall; intros x Hx; apply in_map_iff in Hx;
    destruct Hx as (b & <- & _); discriminate.
Qed.

(** X3: the keys [GetKeys] returns for an internal node are the keys of its
    children before the first nil pointer, one child after the other; the
    separator keys of the node and the children after a nil pointer do not
    contribute.  The same holds of [GetValues]. *)
Theorem internal_GetKeys_GetValues_concat o ks ps :
  keys_of (internalNode o ks ps) = flat_map keys_of (filled_prefix ps) /\
  values_of (internalNode o ks ps) = flat_map values_of (filled_prefix ps).
Proof. split; [apply keys_of_internal | apply values_of_internal]. Qed.

(** X4: [GetKeys] and [GetValues] never return an empty slice that is not
    nil: the slice returned is nil exactly when it has no element. *)
Theorem GetKeys_GetValues_nil_when_empty (t : BPlusTree) :
  (fst (GetKeys t) = None <-> elems (fst (GetKeys t)) = []) /\
  (fst (GetValues t) = None <-> elems (fst (GetValues t)) = []).
Proof.
  split; apply slice_nil_iff;
    [apply node_GetKeys_not_empty | apply node_GetValues_not_empty].
Qed.

(** ** Keys and values side by side *)

Lemma same_nil_prefix (ks : list Key) (vs : list Value) :
  same_nil ks vs = true ->
  List.length (filled_prefix ks) = List.length (filled_prefix vs).
Proof.
  revert vs. induction ks as [|k ks IH]; intros [|v vs] H; simpl in H;
    try discriminate; [reflexivity|].
  apply andb_prop in H as [Hkv H].
  destruct k, v; simpl in *; try discriminate; auto.
Qed.

Lemma paired_children (ps : list (option node)) :
  Forall (fun p => forall n, p = Some n ->
            paired n = true ->
            List.length (keys_of n) = List.length (values_of n)) ps ->
  forall o ks, paired (internalNode o ks ps) = true ->
  List.length (flat_map keys_of (filled_prefix ps)) =
  List.length (flat_map values_of (filled_prefix ps)).
Proof.
  induction 1 as [|[p|] ps Hp _ IH]; intros o ks H; simpl in *;
    try reflexivity.
  apply andb_prop in H as [Hp' H].
  rewrite !length_app, (Hp p eq_refl Hp'). f_equal. now apply (IH o ks).
Qed.

(** X5: when in every leaf a value slot is nil exactly where the key slot
    is, [GetValues] returns as many values as [GetKeys] returns keys. *)
Theorem paired_GetKeys_GetValues_same_length (t : BPlusTree) :
  paired (root t) = true ->
  List.length (elems (fst (GetKeys t))) =
  List.length (elems (fst (GetValues t))).
Proof.
  unfold GetKeys, GetValues. fold (keys_of (root t)) (values_of (root t)).
  induction (root t) as [o ks vs nx | o ks ps IH] using node_children_ind;
    intros H.
  - rewrite keys_of_leaf, values_of_leaf, !length_map.
    now apply same_nil_prefix.
  - rewrite keys_of_internal, values_of_internal.
    now apply (paired_children ps IH o ks).
Qed.

Lemma paired_GetKeys_GetValues_same_length_witness :
  paired two_level_root = true /\
  List.length (elems (fst (GetKeys {| order := 2; root := two_level_root |}))) =
  List.length (elems (fst (GetValues {| order := 2; root := two_level_root |}))).
Proof.
  split; [reflexivity|].
  apply (paired_GetKeys_GetValues_same_length
           {| order := 2; root := two_level_root |}).
  reflexivity.
Defined.

(** ** The fill state *)

Lemma getFillState_from_false (keys : list Key) :
  getFillState_from false keys <> nodeEmpty /\
  (getFillState_from false keys = nodeFull <->
   Forall (fun k => k <> None) keys) /\
  (getFillState_from false keys = nodePartiallyFull <-> In None keys).
Proof.
  induction keys as [|[b|] keys (IH0 & IH1 & IH2)]; simpl.
  - split; [discriminate|]. split; split; try easy; try constructor.
  - split; [exact IH0|]. split.
    + rewrite IH1. split; intros H; [constructor; easy | now inversion H].
    + rewrite IH2. split; [auto | now intros [H|H]].
  - split; [discriminate|]. split; split; try easy; auto.
    all: intros H; inversion H; contradiction.
Qed.

(** X6: [getFillState] of a node, of either kind, is decided by its key
    slots: empty when the first slot is nil, full when no slot is nil (so
    also when there is no slot at all), partially full when the first slot
    holds a key and a later one is nil. *)
Theorem getFillState_by_key_slots (n : node) :
  (getFillState n = nodeEmpty <-> exists rest, node_keys n = None :: rest) /\
  (getFillState n = nodeFull <-> Forall (fun k => k <> None) (node_keys n)) /\
  (getFillState n = nodePartiallyFull <->
   exists b rest, node_keys n = Some b :: rest /\ In None rest).
Proof.
  unfold getFillState. destruct (node_keys n) as [|[b|] keys]; simpl.
  - repeat split; try easy; try constructor.
    + now intros (rest & H).
    + now intros (b & rest & H & _).
  - destruct (getFillState_from_false keys) as (H0 & H1 & H2).
    split; [|split].
    + split; [contradiction | now intros (rest & H)].
    + rewrite H1. split; intros H; [constructor; easy | now inversion H].
    + rewrite H2. split; [eauto|]. now intros (b' & rest & [= _ <-] & H).
  - split; [|split].
    + split; eauto.
    + split; [discriminate|]. intros H. inversion H; contradiction.
    + split; [discriminate|]. now intros (b & rest & H & _).
Qed.

(** X7: the fill state of a leaf tells how many keys [GetKeys] returns for
    it: none when it is empty, every key slot when it is full, and at least
    one key but fewer than there are slots when it is partially full. *)
Theorem leaf_fill_state_counts_keys o ks vs nx :
  match getFillState (leafNode o ks vs nx) with
  | nodeEmpty => node_GetKeys (leafNode o ks vs nx) = (None, None)
  | nodeFull => keys_of (leafNode o ks vs nx) = ks
  | nodePartiallyFull =>
      (0 < List.length (keys_of (leafNode o ks vs nx)) < List.length ks)%nat
  end.
Proof.
  rewrite keys_of_leaf, length_map. unfold getFillState. simpl node_keys.
  destruct ks as [|[b|] rest]; simpl; try reflexivity.
  destruct (getFillState_from_false rest) as (H0 & H1 & H2).
  destruct (getFillState_from false rest).
  - contradiction.
  - pose proof (filled_prefix_short rest (proj1 H2 eq_refl)).
    unfold Key, slice in *. lia.
  - apply (f_equal (cons (Some b))). apply filled_prefix_all, H1.
    reflexivity.
Qed.

(** ** New internal nodes *)

Lemma repeat_all {A : Type} (zero : A) (n : nat) :
  Forall (eq zero) (repeat zero n).
Proof.
  apply Forall_forall. intros x Hx. symmetry. exact (repeat_spec _ _ _ Hx).
Qed.

Lemma int_wrap_small (z : Z) : int_min <= z <= int_max -> int_wrap z = z.
Proof.
  unfold int_min, int_max, int_wrap. intros H.
  rewrite Z.mod_small; lia.
Qed.

(** An order whose key slice the runtime makes is far from the largest
    [int], and the pointer slice, of smaller elements, is made as well. *)
Lemma key_slice_bound (ord : Z) :
  0 <= ord -> slice_size * ord <= maxAlloc ->
  int_min <= ord + 1 <= int_max /\ interface_size * (ord + 1) <= maxAlloc.
Proof.
  unfold slice_size, interface_size, maxAlloc, int_min, int_max.
  change (2 ^ 48) with 281474976710656.
  change (2 ^ 63) with 9223372036854775808. lia.
Qed.

Lemma newInternalNode_inv (ord : Z) (n : node) :
  newInternalNode ord = Returns n ->
  0 <= ord /\ slice_size * ord <= maxAlloc /\
  n = internalNode ord (repeat None (Z.to_nat ord))
        (repeat None (Z.to_nat (ord + 1))).
Proof.
  unfold newInternalNode, bind.
  destruct (make slice_size (None : Key) ord) as [ks|] eqn:Ek;
    [|discriminate].
  apply make_inv in Ek as (H0 & H1 & ->).
  destruct (key_slice_bound ord H0 H1) as (Hw & _).
  rewrite (int_wrap_small _ Hw).
  destruct (make interface_size (None : option node) (ord + 1))
    as [ps|] eqn:Ep; [|discriminate].
  apply make_inv in Ep as (_ & _ & ->). intros [= <-]. auto.
Qed.

Lemma newInternalNode_returns (ord : Z) :
  0 <= ord -> slice_size * ord <= maxAlloc ->
  newInternalNode ord =
  Returns (internalNode ord (repeat None (Z.to_nat ord))
             (repeat None (Z.to_nat (ord + 1)))).
Proof.
  intros H0 H1. destruct (key_slice_bound ord H0 H1) as (Hw & Hp).
  unfold newInternalNode. rewrite (int_wrap_small _ Hw).
  rewrite (make_returns slice_size) by assumption.
  simpl. rewrite (make_returns interface_size) by (assumption || lia).
  reflexivity.
Qed.

(** X8: a node [newInternalNode] returns is an internal node of the order
    asked for, which is not negative, with [order] key slots and one pointer
    more than key slots, all of them nil; its [GetKeys] and [GetValues]
    return nil, and its fill state is empty, or full when the order is 0. *)
Theorem newInternalNode_shape (ord : Z) (n : node) :
  newInternalNode ord = Returns n ->
  0 <= ord /\
  exists ks ps,
    n = internalNode ord ks ps /\
    Z.of_nat (List.length ks) = ord /\
    Z.of_nat (List.length ps) = Z.of_nat (List.length ks) + 1 /\
    Forall (eq None) ks /\ Forall (eq None) ps /\
    node_GetKeys n = (None, None) /\
    node_GetValues n = (None, None) /\
    getFillState n = (if ord =? 0 then nodeFull else nodeEmpty).
Proof.
  intros E. apply newInternalNode_inv in E as (H0 & _ & ->).
  split; [exact H0|].
  exists (repeat None (Z.to_nat ord)), (repeat None (Z.to_nat (ord + 1))).
  split; [reflexivity|]. rewrite !repeat_length.
  split; [lia|]. split; [lia|].
  split; [apply repeat_all|]. split; [apply repeat_all|].
  split; [|split].
  - rewrite node_GetKeys_internal.
    destruct (Z.to_nat (ord + 1)) eqn:E; [lia | reflexivity].
  - rewrite node_GetValues_internal.
    destruct (Z.to_nat (ord + 1)) eqn:E; [lia | reflexivity].
  - unfold getFillState. simpl.
    destruct (Z.eqb_spec ord 0) as [->|Hne]; [reflexivity|].
    destruct (Z.to_nat ord) eqn:E; [lia | reflexivity].
Qed.

Lemma newInternalNode_shape_witness :
  newInternalNode 3 =
  Returns (internalNode 3 [None; None; None] [None; None; None; None]) /\
  0 <= 3 /\
  exists ks ps,
    internalNode 3 [None; None; None] [None; None; None; None] =
    internalNode 3 ks ps /\
    Z.of_nat (List.length ks) = 3 /\
    Z.of_nat (List.length ps) = Z.of_nat (List.length ks) + 1 /\
    Forall (eq None) ks /\ Forall (eq None) ps /\
    node_GetKeys (internalNode 3 [None; None; None]
                    [None; None; None; None]) = (None, None) /\
    node_GetValues (internalNode 3 [None; None; None]
                      [None; None; None; None]) = (None, None) /\
    getFillState (internalNode 3 [None; None; None]
                    [None; None; None; None]) =
    (if 3 =? 0 then nodeFull else nodeEmpty).
Proof.
  assert (E : newInternalNode 3 =
              Returns (internalNode 3 [None; None; None]
                         [None; None; None; None])) by reflexivity.
  split; [exact E | exact (newInternalNode_shape 3 _ E)].
Defined.

(** X9: for an [int] order, [newInternalNode] panics in [make] exactly when
    the order is negative or the key slice would exceed what the runtime
    allocates; the pointer slice, and the sum [order+1], never decide. *)
Theorem newInternalNode_panics_iff (ord : Z) :
  int_min <= ord <= int_max ->
  (newInternalNode ord =
   Panics "runtime error: makeslice: len out of range" <->
   ord < 0 \/ maxAlloc < slice_size * ord).
Proof.
  intros H. split.
  - intros E. destruct (Z.lt_ge_cases ord 0) as [|H0]; [now left|].
    destruct (Z.lt_ge_cases maxAlloc (slice_size * ord)) as [|H1];
      [now right|].
    rewrite newInternalNode_returns in E by assumption. discriminate E.
  - intros Hp. unfold newInternalNode. now rewrite make_panics.
Qed.

Lemma newInternalNode_panics_iff_witness :
  int_min <= 2 ^ 50 <= int_max /\
  (newInternalNode (2 ^ 50) =
   Panics "runtime error: makeslice: len out of range" <->
   2 ^ 50 < 0 \/ maxAlloc < slice_size * 2 ^ 50).
Proof.
  assert (R : int_min <= 2 ^ 50 <= int_max)
    by (unfold int_min, int_max; lia).
  split; [exact R | exact (newInternalNode_panics_iff (2 ^ 50) R)].
Defined.

(** ** The root of a new tree *)

Lemma same_nil_repeat (n : nat) :
  same_nil (repeat None n) (repeat None n) = true.
Proof. induction n as [|n IH]; [reflexivity | exact IH]. Qed.

(** X10: the root of a tree [NewBPlusTree] returns is a leaf of the order
    asked for, which is at least 1, with no next leaf and with as many key
    slots and as many value slots as [Order] says, all of them nil. *)
Theorem NewBPlusTree_root_slots (ord : Z) (t : BPlusTree) :
  NewBPlusTree ord = Returns t ->
  1 <= ord /\
  exists ks vs,
    root t = leafNode ord ks vs None /\
    Z.of_nat (List.length ks) = Order t /\
    Z.of_nat (List.length vs) = Order t /\
    Forall (eq None) ks /\ Forall (eq None) vs /\
    paired (root t) = true.
Proof.
  intros E. apply NewBPlusTree_inv in E as (H & n & E & ->).
  apply newLeafNode_inv in E as (_ & _ & ->). split; [exact H|].
  exists (repeat None (Z.to_nat ord)), (repeat None (Z.to_nat ord)).
  split; [reflexivity|]. unfold Order. simpl. rewrite !repeat_length.
  split; [lia|]. split; [lia|].
  split; [apply repeat_all|]. split; [apply repeat_all|].
  apply same_nil_repeat.
Qed.

Lemma NewBPlusTree_root_slots_witness :
  NewBPlusTree 4 = Returns new_tree_4 /\
  1 <= 4 /\
  exists ks vs,
    root new_tree_4 = leafNode 4 ks vs None /\
    Z.of_nat (List.length ks) = Order new_tree_4 /\
    Z.of_nat (List.length vs) = Order new_tree_4 /\
    Forall (eq None) ks /\ Forall (eq None) vs /\
    paired (root new_tree_4) = true.
Proof.
  assert (E : NewBPlusTree 4 = Returns new_tree_4) by reflexivity.
  split; [exact E | exact (NewBPlusTree_root_slots 4 _ E)].
Defined.
